(** * Package scheduler: registry of scheduler factories and the scheduling
      interfaces (scheduler/scheduler.go)

    The Go file declares one package variable, [BuiltinSchedulers], one
    function, [NewScheduler], the function type [Factory] and four interfaces
    ([Scheduler], [State], [ResultIterator], [Planner]).  The function and the
    variable are embedded below as they are written; the interfaces are
    embedded as type classes over the implementing type. *)

From stdpp Require Import base option list gmap strings.
From Stdlib Require Import Lia.

Set Default Proof Using "Type".

(** ** Go values *)

(** A value of a Go interface type is [nil] or an object of an implementing
    type: [option T], with [None] for [nil]. *)
Definition iface (T : Type) : Type := option T.

(** The [error] interface.  The only error the package builds comes from
    [fmt.Errorf]; its object is determined by its message. *)
Record errorString : Type := mkError { Error : string }.
Definition error : Type := iface errorString.

(** [fmt.Errorf(format, arg)] for a format with a single [%s] verb and a
    string argument: the text before the verb, the argument's bytes as they
    are, the text after the verb. *)
Definition Errorf (before : string) (arg : string) (after : string) : error :=
  Some (mkError (before +:+ arg +:+ after)).

(** ** The registry and [NewScheduler] *)

Section Registry.
(** The objects behind the three interface types the registry handles.
    [NewScheduler] calls none of their methods. *)
Context {StateObj PlannerObj SchedulerObj : Type}.

(** [type Factory func(State, Planner) Scheduler], by what a call returns.
    What the body of a factory does to the state while it runs is left to
    [NewScheduler_world] below. *)
Definition Factory : Type :=
  iface StateObj → iface PlannerObj → iface SchedulerObj.

(** The package's variables: [var BuiltinSchedulers = map[string]Factory{}]. *)
Record Globals : Type := mkGlobals {
  BuiltinSchedulers : gmap string Factory
}.

(** The value the variable is initialised with: the empty map literal. *)
Definition init_globals : Globals := {| BuiltinSchedulers := ∅ |}.

(** Code of the package runs over the package variables. *)
Definition Pkg (A : Type) : Type := Globals → A * Globals.

#[export] Instance pkg_ret : MRet Pkg := λ A (a : A) g, (a, g).
#[export] Instance pkg_bind : MBind Pkg :=
  λ A B (k : A → Pkg B) (m : Pkg A) g, let '(a, g') := m g in k a g'.
(** Reading the map at a key: [v, ok := BuiltinSchedulers[name]]. *)
Definition load_BuiltinSchedulers (name : string) : Pkg (option Factory) :=
  λ g, (BuiltinSchedulers g !! name, g).
(** Writing the map at a key: [BuiltinSchedulers[name] = factory], the only
    way the package offers to make a scheduler available (the variable is
    exported and the file has no registration function). *)
Definition store_BuiltinSchedulers (name : string) (factory : Factory)
  : Pkg unit :=
  λ g, (tt, {| BuiltinSchedulers := <[name := factory]> (BuiltinSchedulers g) |}).

(** [func NewScheduler(name string, state State, planner Planner) (Scheduler, error)] *)
Definition NewScheduler (name : string) (state : iface StateObj)
    (planner : iface PlannerObj) : Pkg (iface SchedulerObj * error) :=
  (* Lookup the factory function *)
  lookup ← load_BuiltinSchedulers name;
  match lookup with
  | None => mret (None, Errorf "unknown scheduler '" name "'")
  | Some factory =>
      (* Instantiate the scheduler *)
      let sched := factory state planner in
      mret (sched, None)
  end.

(** A run of map writes, one after the other, as the code that fills the
    exported variable performs them:
    [BuiltinSchedulers[n1] = f1; BuiltinSchedulers[n2] = f2; ...]. *)
Fixpoint store_all (entries : list (string * Factory)) : Pkg unit :=
  match entries with
  | [] => mret tt
  | (name, factory) :: rest =>
      _ ← store_BuiltinSchedulers name factory; store_all rest
  end.
End Registry.

Arguments Factory : clear implicits.
Arguments Globals : clear implicits.

(** ** [NewScheduler] with the factory run as code

    [Factory] above is what a factory returns.  A Go func value is more: a
    reference to code, and the body it refers to runs when line 23 calls it,
    with the package variable and every object it can reach in its hands.
    Here the map holds such references ([Func]), the state is the map
    together with everything else a body can reach ([Heap]), and
    [call_factory] runs the body a reference stands for. *)

Section Effects.
Context {StateObj PlannerObj SchedulerObj : Type}.
Context {Func Heap : Type}.

(** Everything a call can observe or change: the package variable
    [BuiltinSchedulers] and the rest of the program's state. *)
Record World : Type := mkWorld {
  world_schedulers : gmap string Func;
  world_heap : Heap
}.

(** The call [f(state, planner)] of a func value: what it returns and the
    state it leaves. *)
Variable call_factory :
  Func → iface StateObj → iface PlannerObj → World → iface SchedulerObj * World.

(** [func NewScheduler(name string, state State, planner Planner) (Scheduler, error)],
    statement by statement, over the whole state. *)
Definition NewScheduler_world (name : string) (state : iface StateObj)
    (planner : iface PlannerObj) (w : World)
  : (iface SchedulerObj * error) * World :=
  (* Lookup the factory function *)
  match world_schedulers w !! name with
  | None => ((None, Errorf "unknown scheduler '" name "'"), w)
  | Some factory =>
      (* Instantiate the scheduler *)
      let '(sched, w') := call_factory factory state planner w in
      ((sched, None), w')
  end.
End Effects.

Arguments World : clear implicits.


(** ** Package structs

    [scheduler.go] imports [github.com/hashicorp/nomad/nomad/structs] for
    [Evaluation], [Node], [Plan] and [PlanResult]; that package is not part
    of this file. *)

Module structs.

(** Modelled from the spec: the resource quantities of package structs
    (missing here), "CPU, memory, and similar quantities"; every quantity is
    handled the same way, component by component. *)
Record Resources : Type := mkResources { CPU : nat; MemoryMB : nat }.

(** Modelled from the spec: the status of an Evaluation, declared in the
    missing package structs: pending, in-progress, complete, failed,
    cancelled. *)
Inductive EvalStatus : Type :=
  EvalPending | EvalInProgress | EvalComplete | EvalFailed | EvalCancelled.

(** Modelled from the spec: [structs.Evaluation] (missing), a unit of
    scheduling work: identifier, scheduler-type tag, triggering job, status
    and created-at marker. *)
Record Evaluation : Type := mkEvaluation {
  eval_id : string;
  eval_type : string;
  eval_job : string;
  eval_status : EvalStatus;
  eval_created : nat
}.

(** Modelled from the spec: the status of a Node, declared in the missing
    package structs: ready, draining, down. *)
Inductive NodeStatus : Type := NodeReady | NodeDraining | NodeDown.

(** Modelled from the spec: [structs.Node] (missing), a schedulable host:
    identifier, total capacity, status and placement attributes. *)
Record Node : Type := mkNode {
  node_id : string;
  node_capacity : Resources;
  node_status : NodeStatus;
  node_attributes : list (string * string)
}.

(** Modelled from the spec: the desired status of an Allocation, declared in
    the missing package structs: run or stop; run is the active one. *)
Inductive DesiredStatus : Type := DesiredRun | DesiredStop.

(** Modelled from the spec: the Allocation of the missing package structs,
    the binding of one workload instance to one Node with a reservation
    carved out of the Node's capacity. *)
Record Allocation : Type := mkAllocation {
  alloc_id : string;
  alloc_node : string;
  alloc_eval : string;
  alloc_resources : Resources;
  alloc_desired : DesiredStatus;
  alloc_client : string
}.

(** Modelled from the spec: [structs.Plan] (missing), the creations and
    updates ([plan_allocs]: an Allocation whose identifier is new is
    created, one whose identifier exists is updated) and the deletions
    ([plan_deletes], by identifier) one Scheduler run proposes, tagged with
    its Evaluation and the Snapshot version it was computed against. *)
Record Plan : Type := mkPlan {
  plan_eval : string;
  plan_snapshot : nat;
  plan_allocs : list Allocation;
  plan_deletes : list string
}.

(** Modelled from the spec: the reason codes carried by a rejected
    Allocation, declared in the missing package structs. *)
Inductive RejectReason : Type :=
  CapacityExceeded | NodeUnavailable | StaleSnapshotConflict.

(** Modelled from the spec: [structs.PlanResult] (missing), the arbiter's
    verdict: the proposed Allocations that were accepted, those that were
    rejected, each with its reason, and the state version the result is
    valid as of. *)
Record PlanResult : Type := mkPlanResult {
  result_accepted : list Allocation;
  result_rejected : list (Allocation * RejectReason);
  result_index : nat
}.

#[export] Instance NodeStatus_eq_dec : EqDecision NodeStatus.
Proof. solve_decision. Defined.
#[export] Instance DesiredStatus_eq_dec : EqDecision DesiredStatus.
Proof. solve_decision. Defined.

End structs.
Export structs.

(** ** The interfaces *)

(** [type ResultIterator interface { Next() interface{} }]: a call advances
    the iterator [I] and returns a value of dynamic type [A], or [nil]. *)
Class ResultIterator (I A : Type) : Type :=
  Next : I → iface A * I.

(** [type State interface { Nodes() (ResultIterator, error) }]: an immutable
    view, so the call returns no new view. *)
Class State (S I : Type) `{!ResultIterator I Node} : Type :=
  Nodes : S → iface I * error.

(** [type Planner interface { SubmitPlan }], a method from a pointer to a
    [structs.Plan] to a pointer to a [structs.PlanResult], a [State] and an
    [error]:
    the call may change the planner [P]; [S] is the type of the views it
    hands back. *)
Class Planner (P S : Type) : Type :=
  SubmitPlan : Plan → P → (option PlanResult * iface S * error) * P.

(** [type Scheduler interface { Process }], a method from a pointer to a
    [structs.Evaluation] to an [error]; the call may change the scheduler. *)
Class Scheduler (X : Type) : Type :=
  Process : Evaluation → X → error * X.

(** ** Result Cursor *)

(** Modelled from the spec: no type of this file implements
    [ResultIterator]; the Result Cursor of the spec is a forward-only pull
    iterator over the finite result of a query: the result and the position
    reached in it. *)
Record Cursor (A : Type) : Type := mkCursor {
  cursor_results : list A;
  cursor_pos : nat
}.
Arguments mkCursor {A} _ _.
Arguments cursor_results {A} _.
Arguments cursor_pos {A} _.

(** Modelled from the spec: the [Next] of the missing cursor implementation:
    the next element, moving one step forward, or the sentinel [nil] when
    none is left; there is no rewind and no error result. *)
#[export] Instance Cursor_Next {A} : ResultIterator (Cursor A) A := λ c,
  match cursor_results c !! cursor_pos c with
  | Some x => (Some x, mkCursor (cursor_results c) (S (cursor_pos c)))
  | None => (None, c)
  end.

(** The cursor after [k] further calls of [Next]. *)
Definition advance {I A} `{!ResultIterator I A} (k : nat) (it : I) : I :=
  Nat.iter k (λ it', (Next it').2) it.

(** ** State Snapshot *)

(** Modelled from the spec: the committed cluster state the arbiter owns
    (kept by code that is not in this file): its version, the Nodes by
    identifier and the Allocations. *)
Record ClusterState : Type := mkClusterState {
  cs_index : nat;
  cs_nodes : gmap string Node;
  cs_allocs : list Allocation
}.

(** Modelled from the spec: no type of this file implements [State]; the
    State Snapshot of the spec is an immutable, versioned copy of the
    committed state. *)
Record Snapshot : Type := mkSnapshot { snapshot_of : ClusterState }.

(** Modelled from the spec: the [Nodes] query of the missing snapshot
    implementation: a cursor over all Nodes of the snapshot. *)
#[export] Instance Snapshot_Nodes : State Snapshot (Cursor Node) := λ s,
  (Some (mkCursor (map_to_list (cs_nodes (snapshot_of s))).*2 0), None).

(** ** Plan arbitration *)

(** Modelled from the spec: the arithmetic of resource quantities (package
    structs is missing): no reservation, the sum of two reservations, and
    [res_le a b], [a] does not exceed [b] in any quantity. *)
Definition res_zero : Resources := mkResources 0 0.
Definition res_add (a b : Resources) : Resources :=
  mkResources (CPU a + CPU b) (MemoryMB a + MemoryMB b).
Definition res_le (a b : Resources) : Prop :=
  CPU a ≤ CPU b ∧ MemoryMB a ≤ MemoryMB b.
#[export] Instance res_le_dec a b : Decision (res_le a b).
Proof. unfold res_le. apply _. Defined.

(** Modelled from the spec: which Allocations the missing arbiter counts
    against a Node: those bound to it whose desired status is the active
    one. *)
Definition reserves_on (id : string) (a : Allocation) : Prop :=
  alloc_node a = id ∧ alloc_desired a = DesiredRun.
#[export] Instance reserves_on_dec id a : Decision (reserves_on id a).
Proof. unfold reserves_on. apply _. Defined.

(** Modelled from the spec: the reservation total of a Node, computed by the
    missing arbiter: the sum of the reserved resources of the Allocations
    with an active desired status on that Node. *)
Fixpoint reserved_on (id : string) (allocs : list Allocation) : Resources :=
  match allocs with
  | [] => res_zero
  | a :: rest =>
      if decide (reserves_on id a)
      then res_add (alloc_resources a) (reserved_on id rest)
      else reserved_on id rest
  end.

(** Modelled from the spec: a deletion, as the missing arbiter applies it:
    the Allocations without the one identified by [id]. *)
Definition remove_alloc (id : string) (allocs : list Allocation)
  : list Allocation :=
  filter (λ b, alloc_id b ≠ id) allocs.

(** Modelled from the spec: a creation or update, as the missing arbiter
    applies it: the Allocations with [a] created, or put in the place of the
    one that has its identifier. *)
Definition put_alloc (a : Allocation) (allocs : list Allocation)
  : list Allocation :=
  a :: remove_alloc (alloc_id a) allocs.

(** Modelled from the spec: step 2 of the arbitration algorithm (the arbiter
    is not in this file), for one proposed Allocation against the current
    Nodes and the Allocations committed or accepted so far: the target Node
    must be there and ready, whatever the capacity, and its reservation
    total including the proposal must not exceed its capacity.  [None] is
    acceptance.  The spec gives no condition of its own for the reason
    stale-snapshot-conflict, so none is modelled. *)
Definition validate (nodes : gmap string Node) (allocs : list Allocation)
    (a : Allocation) : option RejectReason :=
  match nodes !! alloc_node a with
  | None => Some NodeUnavailable
  | Some n =>
      if decide (node_status n = NodeReady) then
        if decide (res_le (reserved_on (alloc_node a) (put_alloc a allocs))
                          (node_capacity n))
        then None
        else Some CapacityExceeded
      else Some NodeUnavailable
  end.

(** Modelled from the spec: the outcome of one pass of the missing arbiter
    over the proposals: the Allocations as they will be committed, the
    accepted proposals and the rejected ones. *)
Record Pass : Type := mkPass {
  pass_allocs : list Allocation;
  pass_accepted : list Allocation;
  pass_rejected : list (Allocation * RejectReason)
}.

(** Modelled from the spec: steps 2 and 3 of the arbitration algorithm (the
    arbiter is not in this file): every proposed Allocation is validated on
    its own, in the order of the Plan; an accepted one joins the set that is
    committed together and counts for the proposals after it, a rejected one
    is recorded with its reason and changes nothing. *)
Fixpoint arbitrate (nodes : gmap string Node) (allocs : list Allocation)
    (proposals : list Allocation) : Pass :=
  match proposals with
  | [] => mkPass allocs [] []
  | a :: rest =>
      match validate nodes allocs a with
      | None =>
          let p := arbitrate nodes (put_alloc a allocs) rest in
          mkPass (pass_allocs p) (a :: pass_accepted p) (pass_rejected p)
      | Some reason =>
          let p := arbitrate nodes allocs rest in
          mkPass (pass_allocs p) (pass_accepted p) ((a, reason) :: pass_rejected p)
      end
  end.

(** Modelled from the spec: the arbiter (missing from this file): the
    authoritative state it owns and the durable storage behind it, of which
    only the outcome of each commit matters: [arb_commits] gives the outcome
    of the commits to come, [true] for one that succeeds; past its end every
    commit succeeds. *)
Record Arbiter : Type := mkArbiter {
  arb_state : ClusterState;
  arb_commits : list bool
}.

(** Modelled from the spec: the error the missing arbiter reports for a
    durable commit that failed, distinct from a rejection. *)
Definition commit_fault : error := Some (mkError "plan commit failed").

(** Modelled from the spec: [SubmitPlan] of the missing arbiter, steps 1 to
    4: read the current state (not the Snapshot of the Plan), drop the
    Allocations the Plan deletes, validate the proposals one by one, commit
    the accepted ones together under the next version, and return the
    verdicts with a Snapshot of the state just committed.  A commit that
    fails commits nothing and returns the commit fault alone. *)
#[export] Instance Arbiter_SubmitPlan : Planner Arbiter Snapshot := λ plan arb,
  let current := arb_state arb in
  let kept := foldr remove_alloc (cs_allocs current) (plan_deletes plan) in
  let pass := arbitrate (cs_nodes current) kept (plan_allocs plan) in
  match arb_commits arb with
  | false :: commits => ((None, None, commit_fault), mkArbiter current commits)
  | commits =>
      let committed :=
        mkClusterState (S (cs_index current)) (cs_nodes current) (pass_allocs pass) in
      ((Some (mkPlanResult (pass_accepted pass) (pass_rejected pass) (cs_index committed)),
        Some (mkSnapshot committed), None),
       mkArbiter committed (tail commits))
  end.

(** The arbiter at every point of a sequence of submitted Plans: before the
    first one and after each one. *)
Fixpoint history (arb : Arbiter) (plans : list Plan) : list Arbiter :=
  match plans with
  | [] => [arb]
  | plan :: rest => arb :: history (SubmitPlan plan arb).2 rest
  end.

(** The capacity invariant: on every Node of the state, the reservation
    total does not exceed the Node's capacity. *)
Definition within_capacity (nodes : gmap string Node)
    (allocs : list Allocation) : Prop :=
  map_Forall (λ id n, res_le (reserved_on id allocs) (node_capacity n)) nodes.
Definition capacity_ok (cs : ClusterState) : Prop :=
  within_capacity (cs_nodes cs) (cs_allocs cs).
#[export] Instance capacity_ok_dec cs : Decision (capacity_ok cs).
Proof. unfold capacity_ok, within_capacity. apply _. Defined.

(** ** Sample values *)

(** A scheduler object that records its type name and the state and planner
    it was built with. *)
Record NamedScheduler : Type := mkNamedScheduler {
  sched_kind : string;
  sched_state : iface Snapshot;
  sched_planner : iface Arbiter
}.

Definition service_factory : Factory Snapshot Arbiter NamedScheduler :=
  λ state planner, Some (mkNamedScheduler "service" state planner).
Definition batch_factory : Factory Snapshot Arbiter NamedScheduler :=
  λ state planner, Some (mkNamedScheduler "batch" state planner).

(** The package variables once the service scheduler has been stored. *)
Definition service_globals : Globals Snapshot Arbiter NamedScheduler :=
  {| BuiltinSchedulers := {[ "service" := service_factory ]} |}.




(** One ready Node of capacity 10 and no Allocation. *)
Definition node1 : Node := mkNode "node1" (mkResources 10 10) NodeReady [].
Definition cluster1 : ClusterState :=
  mkClusterState 0 {[ "node1" := node1 ]} [].
Definition arbiter1 : Arbiter := mkArbiter cluster1 [].

(** An Allocation of [size] units of every quantity on [node1]. *)
Definition alloc_of (id eval : string) (size : nat) : Allocation :=
  mkAllocation id "node1" eval (mkResources size size) DesiredRun "pending".

Definition plan6 : Plan := mkPlan "eval1" 0 [alloc_of "a1" "eval1" 6] [].
Definition plan5 : Plan := mkPlan "eval2" 0 [alloc_of "a2" "eval2" 5] [].
Definition plan4 : Plan := mkPlan "eval3" 1 [alloc_of "a3" "eval3" 4] [].
Definition plan4' : Plan := mkPlan "eval4" 1 [alloc_of "a4" "eval4" 4] [].
(** A Plan of which only a part fits. *)
Definition plan654 : Plan :=
  mkPlan "eval5" 0
    [alloc_of "a1" "eval5" 6; alloc_of "a2" "eval5" 5; alloc_of "a3" "eval5" 4] [].

(** The same cluster with its Node down. *)
Definition cluster1_down : ClusterState :=
  mkClusterState 0
    {[ "node1" := mkNode "node1" (mkResources 10 10) NodeDown [] ]} [].

(** The arbiter once [plan6] is committed. *)
Definition arbiter6 : Arbiter := (SubmitPlan plan6 arbiter1).2.

(** A cursor over three results. *)
Definition cursor3 : Cursor nat := mkCursor [7; 8; 9] 0.

(** * Properties *)

(** ** Reservation totals *)

Lemma res_le_refl a : res_le a a.
Proof. unfold res_le. lia. Qed.

Lemma res_le_trans a b c : res_le a b → res_le b c → res_le a c.
Proof. unfold res_le. lia. Qed.

Lemma res_le_add_r a b : res_le b (res_add a b).
Proof. unfold res_le, res_add. simpl. lia. Qed.

Lemma res_add_le_mono a b c : res_le b c → res_le (res_add a b) (res_add a c).
Proof. unfold res_le, res_add. simpl. lia. Qed.

(** Taking an Allocation away never raises a reservation total. *)
Lemma reserved_on_remove_alloc node id allocs :
  res_le (reserved_on node (remove_alloc id allocs)) (reserved_on node allocs).
Proof.
  unfold remove_alloc.
  induction allocs as [|a allocs IH]; [apply res_le_refl|].
  rewrite filter_cons. simpl.
  destruct (decide (alloc_id a ≠ id)); simpl;
    destruct (decide (reserves_on node a)).
  - by apply res_add_le_mono.
  - done.
  - eapply res_le_trans; [exact IH | apply res_le_add_r].
  - done.
Qed.

(** A proposal bound to another Node never raises a Node's total. *)
Lemma reserved_on_put_alloc_other node a allocs :
  alloc_node a ≠ node →
  res_le (reserved_on node (put_alloc a allocs)) (reserved_on node allocs).
Proof.
  intros Hne. unfold put_alloc. simpl.
  destruct (decide (reserves_on node a)) as [[Heq _]|_]; [done|].
  apply reserved_on_remove_alloc.
Qed.

(** ** The arbitration pass *)

Lemma validate_accept nodes allocs a :
  validate nodes allocs a = None →
  ∃ n, nodes !! alloc_node a = Some n ∧ node_status n = NodeReady ∧
       res_le (reserved_on (alloc_node a) (put_alloc a allocs)) (node_capacity n).
Proof.
  unfold validate. destruct (nodes !! alloc_node a) as [n|]; [|done].
  repeat case_decide; try done. eauto.
Qed.

Lemma within_capacity_put_alloc nodes allocs a :
  within_capacity nodes allocs →
  validate nodes allocs a = None →
  within_capacity nodes (put_alloc a allocs).
Proof.
  intros Hok (n & Hn & _ & Hfit)%validate_accept id m Hm.
  destruct (decide (alloc_node a = id)) as [<-|Hne].
  - by simplify_eq.
  - eapply res_le_trans; [by apply reserved_on_put_alloc_other|].
    by apply (Hok id m).
Qed.

Lemma within_capacity_remove_alloc nodes allocs id :
  within_capacity nodes allocs →
  within_capacity nodes (remove_alloc id allocs).
Proof.
  intros Hok node n Hn.
  eapply res_le_trans; [apply reserved_on_remove_alloc|]. by apply (Hok node n).
Qed.

Lemma within_capacity_deletes nodes allocs ids :
  within_capacity nodes allocs →
  within_capacity nodes (foldr remove_alloc allocs ids).
Proof.
  intros Hok. induction ids as [|id ids IH]; simpl; [done|].
  by apply within_capacity_remove_alloc.
Qed.

Lemma within_capacity_arbitrate nodes proposals : ∀ allocs,
  within_capacity nodes allocs →
  within_capacity nodes (pass_allocs (arbitrate nodes allocs proposals)).
Proof.
  induction proposals as [|a rest IH]; intros allocs Hok; simpl; [done|].
  destruct (validate nodes allocs a) as [reason|] eqn:Hv; simpl.
  - by apply IH.
  - apply IH. by apply within_capacity_put_alloc.
Qed.

(** Every proposal gets one verdict of its own. *)
Lemma arbitrate_verdicts nodes proposals : ∀ allocs,
  let p := arbitrate nodes allocs proposals in
  pass_accepted p ++ (pass_rejected p).*1 ≡ₚ proposals.
Proof.
  induction proposals as [|a rest IH]; intros allocs; simpl; [done|].
  destruct (validate nodes allocs a) as [reason|]; simpl.
  - rewrite <- Permutation_middle. f_equiv. apply IH.
  - f_equiv. apply IH.
Qed.

(** The invariant, Node by Node and quantity by quantity. *)
Lemma capacity_ok_unfold cs :
  capacity_ok cs ↔
  ∀ id n, cs_nodes cs !! id = Some n →
    CPU (reserved_on id (cs_allocs cs)) ≤ CPU (node_capacity n) ∧
    MemoryMB (reserved_on id (cs_allocs cs)) ≤ MemoryMB (node_capacity n).
Proof. reflexivity. Qed.

(** One submitted Plan keeps the capacity invariant, whether the commit
    succeeds or fails. *)
Lemma SubmitPlan_capacity_ok plan arb :
  capacity_ok (arb_state arb) →
  capacity_ok (arb_state (SubmitPlan plan arb).2).
Proof.
  intros Hok. unfold SubmitPlan, Arbiter_SubmitPlan.
  assert (within_capacity (cs_nodes (arb_state arb))
            (pass_allocs (arbitrate (cs_nodes (arb_state arb))
               (foldr remove_alloc (cs_allocs (arb_state arb)) (plan_deletes plan))
               (plan_allocs plan)))) as Hnew.
  { by apply within_capacity_arbitrate, within_capacity_deletes. }
  destruct (arb_commits arb) as [|[] commits]; simpl; done.
Qed.

(** ** The registry *)

(** C2: for a name that no factory is stored under, [NewScheduler] returns
    no Scheduler ([nil]) and an error whose message is
    [unknown scheduler '<name>'], whatever the state and the planner. *)
Theorem NewScheduler_unknown {S P X} (g : Globals S P X) name state planner :
  BuiltinSchedulers g !! name = None →
  (NewScheduler name state planner g).1
  = (None, Some (mkError ("unknown scheduler '" +:+ name +:+ "'"))).
Proof.
  intros Hnone. unfold NewScheduler, load_BuiltinSchedulers.
  cbv [mbind pkg_bind mret pkg_ret]. by rewrite Hnone.
Qed.

Lemma NewScheduler_unknown_witness :
  BuiltinSchedulers service_globals !! "batch" = None ∧
  (NewScheduler "batch" (Some (mkSnapshot cluster1)) (Some arbiter1)
     service_globals).1
  = (None, Some (mkError "unknown scheduler 'batch'")).
Proof.
  split; [reflexivity|].
  apply (NewScheduler_unknown service_globals "batch"). reflexivity.
Defined.

(** C3: for a name a factory is stored under, [NewScheduler] calls that
    factory with the given state and planner and returns what the factory
    returned, with a [nil] error. *)
Theorem NewScheduler_registered {S P X} (g : Globals S P X) name
    (factory : Factory S P X) state planner :
  BuiltinSchedulers g !! name = Some factory →
  (NewScheduler name state planner g).1 = (factory state planner, None).
Proof.
  intros Hsome. unfold NewScheduler, load_BuiltinSchedulers.
  cbv [mbind pkg_bind mret pkg_ret]. by rewrite Hsome.
Qed.

Lemma NewScheduler_registered_witness :
  BuiltinSchedulers service_globals !! "service" = Some service_factory ∧
  (NewScheduler "service" (Some (mkSnapshot cluster1)) (Some arbiter1)
     service_globals).1
  = (Some (mkNamedScheduler "service" (Some (mkSnapshot cluster1)) (Some arbiter1)),
     None).
Proof.
  split; [reflexivity|].
  apply (NewScheduler_registered service_globals "service" service_factory).
  reflexivity.
Defined.

(** C4, as the spec states it, fails: the registry is a Go map, and storing
    a factory under a name that is already there is not rejected; the entry
    is replaced and [NewScheduler] then builds the scheduler of the second
    factory. *)
Lemma store_duplicate_not_rejected :
  BuiltinSchedulers service_globals !! "service" = Some service_factory ∧
  BuiltinSchedulers
    (store_BuiltinSchedulers "service" batch_factory service_globals).2
    !! "service" = Some batch_factory ∧
  (NewScheduler "service" None None
     (store_BuiltinSchedulers "service" batch_factory service_globals).2).1
  = (Some (mkNamedScheduler "batch" None None), None) ∧
  (NewScheduler "service" None None
     (store_BuiltinSchedulers "service" batch_factory service_globals).2).1
  ≠ (NewScheduler "service" None None service_globals).1.
Proof. repeat split. discriminate. Qed.

(** C4, amended: storing a factory under a name never fails, whether or not
    the name is already there; afterwards the name maps to the factory
    stored last and every other entry is as before, so a name maps to at
    most one factory. *)
Theorem store_BuiltinSchedulers_replaces {S P X} (g : Globals S P X) name
    (factory : Factory S P X) :
  let g' := (store_BuiltinSchedulers name factory g).2 in
  BuiltinSchedulers g' !! name = Some factory ∧
  delete name (BuiltinSchedulers g') = delete name (BuiltinSchedulers g).
Proof.
  simpl. split; [apply lookup_insert_eq | apply delete_insert_eq].
Qed.

(** With factories that only build, [NewScheduler_world] is [NewScheduler]:
    the same result, and the state handed on as it was. *)
Lemma NewScheduler_world_pure {S P X Func Heap} (build : Func → Factory S P X)
    (w : World Func Heap) name state planner :
  NewScheduler_world (λ f s p w', (build f s p, w')) name state planner w
  = ((NewScheduler name state planner
        {| BuiltinSchedulers := build <$> world_schedulers w |}).1, w).
Proof.
  unfold NewScheduler_world, NewScheduler, load_BuiltinSchedulers.
  cbv [mbind pkg_bind mret pkg_ret]. simpl. rewrite lookup_fmap.
  by destruct (world_schedulers w !! name).
Qed.





(** C9: with the package variable in its initial value, the empty map,
    [NewScheduler] returns the unknown-scheduler error for every name, state
    and planner. *)
Theorem NewScheduler_initially_unknown {S P X} name (state : iface S)
    (planner : iface P) :
  (NewScheduler (SchedulerObj := X) name state planner init_globals).1
  = (None, Some (mkError ("unknown scheduler '" +:+ name +:+ "'"))).
Proof.
  unfold NewScheduler, load_BuiltinSchedulers, init_globals.
  cbv [mbind pkg_bind mret pkg_ret]. simpl. by rewrite lookup_empty.
Qed.

(** C10: when [NewScheduler] returns an error that is not [nil], the
    Scheduler it returns is [nil] and the message of the error is exactly
    [unknown scheduler '<name>'], which holds the requested name as it was
    given. *)
Theorem NewScheduler_error {S P X} (g : Globals S P X) name state planner
    sched err :
  (NewScheduler name state planner g).1 = (sched, Some err) →
  sched = None ∧
  Error err = "unknown scheduler '" +:+ name +:+ "'" ∧
  ∃ before after, Error err = before +:+ name +:+ after.
Proof.
  unfold NewScheduler, load_BuiltinSchedulers.
  cbv [mbind pkg_bind mret pkg_ret].
  destruct (BuiltinSchedulers g !! name) as [factory|]; simpl; [done|].
  intros [= <- <-]. simpl. eauto.
Qed.

Lemma NewScheduler_error_witness :
  (NewScheduler "batch" None None service_globals).1
  = (None, Some (mkError "unknown scheduler 'batch'")) ∧
  Error (mkError "unknown scheduler 'batch'") = "unknown scheduler 'batch'".
Proof.
  split; [reflexivity|].
  apply (NewScheduler_error service_globals "batch" None None None
           (mkError "unknown scheduler 'batch'")).
  reflexivity.
Defined.

(** ** The Result Cursor *)

Lemma Cursor_Next_exhausted {A} (c c' : Cursor A) :
  Next c = (None, c') → c' = c ∧ cursor_results c !! cursor_pos c = None.
Proof.
  unfold Next, Cursor_Next.
  destruct (cursor_results c !! cursor_pos c); [done|]. by intros [= <-].
Qed.

Lemma advance_succ {I A} `{!ResultIterator I A} k (it : I) :
  advance (S k) it = advance k (Next it).2.
Proof. unfold advance. by rewrite Nat.iter_succ_r. Qed.

Lemma Cursor_Next_some {A} (c : Cursor A) x :
  cursor_results c !! cursor_pos c = Some x →
  Next c = (Some x, mkCursor (cursor_results c) (S (cursor_pos c))).
Proof. intros Hx. unfold Next, Cursor_Next. by rewrite Hx. Qed.

Lemma Cursor_Next_none {A} (c : Cursor A) :
  cursor_results c !! cursor_pos c = None → Next c = (None, c).
Proof. intros Hx. unfold Next, Cursor_Next. by rewrite Hx. Qed.

(** A cursor is finite: after as many calls as it has results left, [Next]
    returns the sentinel. *)
Lemma Cursor_reaches_exhaustion {A} (c : Cursor A) :
  (Next (advance (length (cursor_results c) - cursor_pos c) c)).1 = None.
Proof.
  remember (length (cursor_results c) - cursor_pos c) as left eqn:Hleft.
  revert c Hleft. induction left as [|left IH]; intros c Hleft.
  - simpl. rewrite Cursor_Next_none; [done|].
    apply lookup_ge_None_2. lia.
  - rewrite advance_succ.
    destruct (cursor_results c !! cursor_pos c) as [x|] eqn:Hx.
    + rewrite (Cursor_Next_some c x Hx). simpl. apply IH. simpl. lia.
    + apply lookup_ge_None_1 in Hx. lia.
Qed.

(** C6: once [Next] has returned the sentinel [nil], every later call
    returns the same sentinel and leaves the cursor where it is; the
    sentinel is a result of [Next], which has no error to return. *)
Theorem Cursor_exhaustion_idempotent {A} (c c' : Cursor A) :
  Next c = (None, c') →
  ∀ k, Next (advance k c') = (None, c').
Proof.
  intros Hnext k.
  destruct (Cursor_Next_exhausted c c' Hnext) as [-> _].
  induction k as [|k IH]; [done|].
  unfold advance in *. simpl. by rewrite IH.
Qed.

Lemma Cursor_exhaustion_idempotent_witness :
  Next (advance 3 cursor3) = (None, advance 3 cursor3) ∧
  Next (advance 5 (advance 3 cursor3)) = (None, advance 3 cursor3).
Proof.
  split; [reflexivity|].
  apply (Cursor_exhaustion_idempotent (advance 3 cursor3)). reflexivity.
Defined.

(** ** Plan arbitration *)

(** The scenarios of the spec, run on the model. *)

(** Scenario A: capacity 10, a proposal of 6 is accepted and committed. *)
Example scenario_A :
  (SubmitPlan plan6 arbiter1).1.1.1
  = Some (mkPlanResult [alloc_of "a1" "eval1" 6] [] 1) ∧
  reserved_on "node1" (cs_allocs (arb_state arbiter6)) = mkResources 6 6.
Proof. split; reflexivity. Qed.

(** Scenario B: with 4 left, a proposal of 5 is rejected for capacity and
    the refreshed Snapshot still shows 6 reserved. *)
Example scenario_B :
  (SubmitPlan plan5 arbiter6).1.1.1
  = Some (mkPlanResult [] [(alloc_of "a2" "eval2" 5, CapacityExceeded)] 2) ∧
  (λ s, reserved_on "node1" (cs_allocs (snapshot_of s)))
    <$> (SubmitPlan plan5 arbiter6).1.1.2 = Some (mkResources 6 6).
Proof. split; reflexivity. Qed.

(** Scenario C: two Plans of 4 for the 4 that are left: the one validated
    first wins, the other is rejected, and 10 are reserved in the end. *)
Example scenario_C :
  result_accepted <$> (SubmitPlan plan4 arbiter6).1.1.1
  = Some [alloc_of "a3" "eval3" 4] ∧
  result_rejected <$> (SubmitPlan plan4' (SubmitPlan plan4 arbiter6).2).1.1.1
  = Some [(alloc_of "a4" "eval4" 4, CapacityExceeded)] ∧
  reserved_on "node1"
    (cs_allocs (arb_state (SubmitPlan plan4' (SubmitPlan plan4 arbiter6).2).2))
  = mkResources 10 10.
Proof. repeat split; reflexivity. Qed.

(** Scenario D: a proposal for a Node that is down is rejected as
    node-unavailable although it would fit. *)
Example scenario_D :
  result_rejected <$> (SubmitPlan plan6 (mkArbiter cluster1_down [])).1.1.1
  = Some [(alloc_of "a1" "eval1" 6, NodeUnavailable)].
Proof. reflexivity. Qed.

(** A commit that fails is reported as an error, without a result, and
    leaves the committed state as it was. *)
Lemma SubmitPlan_commit_fault plan state commits :
  SubmitPlan plan (mkArbiter state (false :: commits))
  = ((None, None, commit_fault), mkArbiter state commits).
Proof. reflexivity. Qed.

(** C7: a [SubmitPlan] that returns no error returns a Plan Result and a
    Snapshot: the result gives every proposed Allocation of the Plan a
    verdict of its own, accepted or rejected with a reason, and the Snapshot
    is the state just committed, under a new version the result is valid as
    of. *)
Theorem SubmitPlan_result (plan : Plan) (arb arb' : Arbiter)
    (result : option PlanResult) (snapshot : iface Snapshot) :
  SubmitPlan plan arb = ((result, snapshot, None), arb') →
  ∃ r s, result = Some r ∧ snapshot = Some s ∧
    result_accepted r ++ (result_rejected r).*1 ≡ₚ plan_allocs plan ∧
    snapshot_of s = arb_state arb' ∧
    cs_index (snapshot_of s) = S (cs_index (arb_state arb)) ∧
    result_index r = cs_index (snapshot_of s).
Proof.
  unfold SubmitPlan, Arbiter_SubmitPlan.
  destruct (arb_commits arb) as [|[] commits]; simpl; [| |done];
    intros [= <- <- <-]; do 2 eexists; simpl;
    (split_and!; [done | done | apply arbitrate_verdicts | done | done | done]).
Qed.

Lemma SubmitPlan_result_witness :
  ∃ r s arb',
    SubmitPlan plan654 arbiter1 = ((Some r, Some s, None), arb') ∧
    result_accepted r = [alloc_of "a1" "eval5" 6; alloc_of "a3" "eval5" 4] ∧
    result_rejected r = [(alloc_of "a2" "eval5" 5, CapacityExceeded)] ∧
    result_accepted r ++ (result_rejected r).*1 ≡ₚ plan_allocs plan654 ∧
    snapshot_of s = arb_state arb'.
Proof.
  destruct (SubmitPlan plan654 arbiter1) as [[[result snapshot] err] arb'] eqn:Hsubmit.
  vm_compute in Hsubmit.
  injection Hsubmit as <- <- <- <-.
  pose proof (SubmitPlan_result plan654 arbiter1 _ _ _ eq_refl)
    as (r & s & [= <-] & [= <-] & Hperm & Hsnap & _).
  do 3 eexists. split; [reflexivity|]. split_and!; [reflexivity | reflexivity | exact Hperm | exact Hsnap].
Defined.

(** C1: along every sequence of Plans submitted to the arbiter, starting
    from a state within capacity, at every point and on every Node the sum
    of the reserved resources of the Allocations with an active desired
    status does not exceed the Node's capacity. *)
Theorem capacity_invariant arb plans :
  capacity_ok (arb_state arb) →
  Forall (λ point, capacity_ok (arb_state point)) (history arb plans).
Proof.
  revert arb. induction plans as [|plan rest IH]; intros arb Hok; simpl.
  - by constructor.
  - constructor; [done|]. by apply IH, SubmitPlan_capacity_ok.
Qed.

Lemma capacity_invariant_witness :
  capacity_ok (arb_state arbiter1) ∧
  Forall (λ point, capacity_ok (arb_state point))
         (history arbiter1 [plan6; plan5; plan4; plan4']).
Proof.
  assert (capacity_ok (arb_state arbiter1)) as Hok.
  { apply (bool_decide_unpack (capacity_ok (arb_state arbiter1))).
    vm_compute. exact I. }
  split; [exact Hok|]. apply (capacity_invariant arbiter1). exact Hok.
Defined.

(** ** More on the registry and [NewScheduler] *)

(** [NewScheduler] in one equation: the result is read off the entry of the
    map at [name], and the package variables are handed on. *)
Lemma NewScheduler_run {S P X} (g : Globals S P X) name state planner :
  NewScheduler name state planner g
  = (match BuiltinSchedulers g !! name with
     | None => (None, Some (mkError ("unknown scheduler '" +:+ name +:+ "'")))
     | Some factory => (factory state planner, None)
     end, g).
Proof.
  unfold NewScheduler, load_BuiltinSchedulers.
  cbv [mbind pkg_bind mret pkg_ret].
  by destruct (BuiltinSchedulers g !! name).
Qed.

(** X1: writing the map and then instantiating: after
    [BuiltinSchedulers[name] = factory], [NewScheduler] for [name] returns
    what [factory] builds from the state and planner, with a [nil] error,
    whatever the map held before. *)
Theorem store_then_NewScheduler {S P X} (g : Globals S P X) name
    (factory : Factory S P X) state planner :
  (NewScheduler name state planner
     (store_BuiltinSchedulers name factory g).2).1
  = (factory state planner, None).
Proof. rewrite NewScheduler_run. simpl. by rewrite lookup_insert_eq. Qed.



(** X3: the error [NewScheduler] returns is [nil] exactly when the map has an
    entry for the name: the lookup alone decides between the two paths, the
    state, the planner and what the factory returns play no part. *)
Theorem NewScheduler_nil_error_iff {S P X} (g : Globals S P X) name state
    planner :
  (NewScheduler name state planner g).1.2 = None
  ↔ is_Some (BuiltinSchedulers g !! name).
Proof.
  rewrite NewScheduler_run. simpl.
  destruct (BuiltinSchedulers g !! name) as [factory|]; simpl.
  - split; [eauto | done].
  - split; [done | by intros [? ?]].
Qed.

(** X4: the Scheduler [NewScheduler] returns is not [nil] exactly when the
    map has a factory for the name and that factory returns a Scheduler that
    is not [nil], and it then comes with a [nil] error; and [NewScheduler]
    returns a [nil] Scheduler together with a [nil] error exactly when the
    map has a factory for the name and that factory returns [nil]. *)
Theorem NewScheduler_scheduler_iff {S P X} (g : Globals S P X) name state
    planner :
  (is_Some (NewScheduler name state planner g).1.1
   ↔ ∃ factory : Factory S P X,
       BuiltinSchedulers g !! name = Some factory ∧
       is_Some (factory state planner)) ∧
  (is_Some (NewScheduler name state planner g).1.1
   ↔ ∃ sched, (NewScheduler name state planner g).1 = (Some sched, None)) ∧
  ((NewScheduler name state planner g).1 = (None, None)
   ↔ ∃ factory : Factory S P X,
       BuiltinSchedulers g !! name = Some factory ∧
       factory state planner = None).
Proof.
  rewrite NewScheduler_run. simpl.
  destruct (BuiltinSchedulers g !! name) as [factory|]; simpl.
  - split_and!.
    + split; [eauto | by intros (? & [= <-] & ?)].
    + split; [intros [sched ->]; eauto | intros [sched [= ->]]; eauto].
    + split; [intros [= Hnil]; eauto|].
      intros (factory' & [= Heq] & Hnil). subst factory'. by rewrite Hnil.
  - split_and!.
    + split; [by intros [? ?] | by intros (? & ? & ?)].
    + split; [by intros [? ?] | by intros [? ?]].
    + split; [done | by intros (? & ? & ?)].
Qed.

(** Appending the same text after two strings keeps them apart. *)
Lemma string_app_inj_r (s1 s2 tail : string) :
  String.length s1 = String.length s2 → s1 +:+ tail = s2 +:+ tail → s1 = s2.
Proof.
  revert s2. induction s1 as [|c s1 IH]; intros [|d s2]; simpl; try done.
  intros [= Hlen] [= -> Happ]. f_equal. by apply IH.
Qed.

Lemma string_app_length (s1 s2 : string) :
  String.length (s1 +:+ s2) = String.length s1 + String.length s2.
Proof. induction s1 as [|c s1 IH]; simpl; [done|]. by rewrite IH. Qed.

(** X5: the message of the unknown-scheduler error names the scheduler: two
    calls of [NewScheduler] whose errors carry the same message were made
    for the same name. *)
Theorem unknown_message_identifies_name {S P X} (g1 g2 : Globals S P X)
    name1 name2 state1 planner1 state2 planner2 err1 err2 :
  (NewScheduler name1 state1 planner1 g1).1.2 = Some err1 →
  (NewScheduler name2 state2 planner2 g2).1.2 = Some err2 →
  Error err1 = Error err2 →
  name1 = name2.
Proof.
  rewrite !NewScheduler_run. simpl.
  destruct (BuiltinSchedulers g1 !! name1); simpl; [done|].
  destruct (BuiltinSchedulers g2 !! name2); simpl; [done|].
  intros [= <-] [= <-]. simpl. intros Hmsg.
  apply (inj (String.app "unknown scheduler '")) in Hmsg.
  apply (string_app_inj_r name1 name2 "'"); [|done].
  apply (f_equal String.length) in Hmsg.
  rewrite !string_app_length in Hmsg. lia.
Qed.

Lemma unknown_message_identifies_name_witness :
  (NewScheduler "batch" None None service_globals).1.2
  = Some (mkError "unknown scheduler 'batch'") ∧
  (NewScheduler "batch" (Some (mkSnapshot cluster1)) None
     (init_globals (SchedulerObj := NamedScheduler) (PlannerObj := Arbiter))).1.2
  = Some (mkError "unknown scheduler 'batch'") ∧
  "batch" = "batch".
Proof.
  split; [reflexivity|]. split; [reflexivity|].
  apply (unknown_message_identifies_name service_globals init_globals
           "batch" "batch" None None (Some (mkSnapshot cluster1)) None
           (mkError "unknown scheduler 'batch'")
           (mkError "unknown scheduler 'batch'")); reflexivity.
Defined.

Lemma store_all_lookup {S P X} (entries : list (string * Factory S P X)) :
  ∀ (g : Globals S P X) name,
    is_Some (BuiltinSchedulers (store_all entries g).2 !! name)
    ↔ name ∈ entries.*1 ∨ is_Some (BuiltinSchedulers g !! name).
Proof.
  induction entries as [|[n f] rest IH]; intros g name.
  - simpl. split; [by right|]. intros [Hin|Hsome]; [|done].
    by apply not_elem_of_nil in Hin.
  - change (store_all ((n, f) :: rest) g)
      with (store_all rest (store_BuiltinSchedulers n f g).2).
    rewrite IH. simpl. rewrite elem_of_cons, lookup_insert.
    case_decide as Hn; [subst n|].
    + split; [intros _; by left; left | intros _; right; eauto].
    + split; [intros [?|?]; [left; by right | by right]|].
      intros [[?|?]|?]; [by subst | by left | by right].
Qed.

(** X6: starting from the initial, empty map, after any run of writes
    [NewScheduler] returns a [nil] error exactly for the names a factory was
    written under, and for every other name exactly a [nil] Scheduler with
    the error [unknown scheduler '<name>']: names are compared as they are,
    byte by byte. *)
Theorem NewScheduler_after_store_all {S P X}
    (entries : list (string * Factory S P X)) name state planner :
  ((NewScheduler name state planner (store_all entries init_globals).2).1.2
   = None
   ↔ name ∈ entries.*1) ∧
  ((NewScheduler name state planner (store_all entries init_globals).2).1
   = (None, Some (mkError ("unknown scheduler '" +:+ name +:+ "'")))
   ↔ name ∉ entries.*1).
Proof.
  pose proof (store_all_lookup entries init_globals name) as Hlookup.
  simpl in Hlookup. rewrite lookup_empty in Hlookup.
  rewrite NewScheduler_run. simpl.
  destruct (BuiltinSchedulers (store_all entries init_globals).2 !! name)
    as [factory|]; simpl.
  - assert (name ∈ entries.*1) as Hin.
    { destruct Hlookup as [[Hin|[? ?]] _]; [eauto | done | done]. }
    split; split; try done.
  - assert (name ∉ entries.*1) as Hnotin.
    { intros Hin. destruct Hlookup as [_ [? ?]]; [by left | done]. }
    split; split; try done.
Qed.

Lemma store_all_cons {S P X} (g : Globals S P X) name
    (factory : Factory S P X) rest :
  store_all ((name, factory) :: rest) g
  = store_all rest (store_BuiltinSchedulers name factory g).2.
Proof. reflexivity. Qed.

Lemma store_all_app {S P X} (first rest : list (string * Factory S P X)) :
  ∀ g : Globals S P X,
    (store_all (first ++ rest) g).2 = (store_all rest (store_all first g).2).2.
Proof.
  induction first as [|[n f] first IH]; intros g; [done|].
  change (store_all (((n, f) :: first) ++ rest) g)
    with (store_all (first ++ rest) (store_BuiltinSchedulers n f g).2).
  by rewrite IH.
Qed.

Lemma store_all_lookup_other {S P X} (entries : list (string * Factory S P X)) :
  ∀ (g : Globals S P X) name,
    name ∉ entries.*1 →
    BuiltinSchedulers (store_all entries g).2 !! name
    = BuiltinSchedulers g !! name.
Proof.
  induction entries as [|[n f] rest IH]; intros g name Hnotin; [done|].
  change (store_all ((n, f) :: rest) g)
    with (store_all rest (store_BuiltinSchedulers n f g).2).
  simpl in Hnotin. apply not_elem_of_cons in Hnotin as [Hne Hrest].
  rewrite IH by done. simpl. by rewrite lookup_insert_ne.
Qed.

(** X7: in a run of writes the last write under a name wins: whatever was
    written under the name before it, and whatever the map held at the
    start, [NewScheduler] for that name calls the factory written last. *)
Theorem NewScheduler_last_store_wins {S P X} (g : Globals S P X)
    (before after : list (string * Factory S P X)) name
    (factory : Factory S P X) state planner :
  name ∉ after.*1 →
  (NewScheduler name state planner
     (store_all (before ++ (name, factory) :: after) g).2).1
  = (factory state planner, None).
Proof.
  intros Hnotin. rewrite NewScheduler_run.
  rewrite store_all_app, store_all_cons.
  rewrite (store_all_lookup_other after _ name Hnotin).
  simpl. by rewrite lookup_insert_eq.
Qed.

Lemma NewScheduler_last_store_wins_witness :
  ("service" ∉ fst <$> [("batch", batch_factory)]) ∧
  (NewScheduler "service" None None
     (store_all ([("service", service_factory)]
                 ++ ("service", batch_factory) :: [("batch", batch_factory)])
        service_globals).2).1
  = (Some (mkNamedScheduler "batch" None None), None).
Proof.
  assert ("service" ∉ (fst <$> [("batch", batch_factory)])) as Hnotin.
  { simpl. apply not_elem_of_cons. split; [discriminate | apply not_elem_of_nil]. }
  split; [exact Hnotin|].
  apply (NewScheduler_last_store_wins service_globals
           [("service", service_factory)] [("batch", batch_factory)]
           "service" batch_factory None None).
  exact Hnotin.
Defined.
